(** * importlinter.application.contract_utils

    A shallow embedding of [contract_utils.py]: the inline-ignore scanner
    ([get_inline_ignored_lines]), the ignore-rule resolver
    ([remove_ignored_imports]) with its alerting policy, and the occurrence
    filter ([filter_ignored_lines]).

    The import graph is an object that the Python code mutates in place, and
    an unmatched rule can raise.  Programs are therefore written in a small
    state-and-exception monad over the graph.  Python sets are [gset]s; the
    order in which a [for] loop or a comprehension visits a set is not fixed by
    the language, so it is a parameter ([SetIteration]). *)

From stdpp Require Import gmap strings list sorting.

Set Default Proof Using "Type".

Local Open Scope string_scope.
Local Open Scope list_scope.

(** ** Strings *)

(** [keyword in line_contents]: Python's substring test. *)
Fixpoint str_contains (haystack needle : string) : bool :=
  String.prefix needle haystack ||
  match haystack with
  | EmptyString => false
  | String _ rest => str_contains rest needle
  end.

(** What "contains [needle] as a plain substring" means. *)
Definition substring_of (needle haystack : string) : Prop :=
  ∃ before after, haystack = before +:+ needle +:+ after.

(** ** Data model *)

Inductive AlertLevel := NONE | WARN | ERROR.

(** Modelled from the spec: [Module] and [DirectImport] are value objects of
    [importlinter.domain.imports].  A module is named by its dotted path and
    two modules are equal when their names are; two direct imports are equal
    when both endpoints are. *)
Record Module := { name : string }.

Record DirectImport := { importer : Module; imported : Module }.

(** One occurrence-detail dict of the graph.  The code reads ["importer"],
    ["imported"] and ["line_number"] by subscript and ["line_contents"] with
    [.get(..., "")], so only the last may be absent. *)
Record ImportDetails := {
  detail_importer : string;
  detail_imported : string;
  detail_line_number : Z;
  detail_line_contents : option string;
}.

Global Instance AlertLevel_eq_dec : EqDecision AlertLevel.
Proof. solve_decision. Defined.
Global Instance Module_eq_dec : EqDecision Module.
Proof. solve_decision. Defined.
Global Instance DirectImport_eq_dec : EqDecision DirectImport.
Proof. solve_decision. Defined.
Global Instance ImportDetails_eq_dec : EqDecision ImportDetails.
Proof. solve_decision. Defined.

Global Instance Module_countable : Countable Module.
Proof. by apply (inj_countable' name Build_Module); intros []. Defined.
Global Instance DirectImport_countable : Countable DirectImport.
Proof.
  by apply (inj_countable' (λ d, (importer d, imported d))
                           (λ p, Build_DirectImport p.1 p.2)); intros [].
Defined.

(** ** The import graph *)

(** Modelled from the spec: the grimp [ImportGraph] is an external collaborator
    whose code is not part of this module.  The spec describes it as a mutable
    collection of modules and direct imports, where one direct import may be
    recorded with several located occurrences.  It is kept as an adjacency
    map: every module of the graph is a key, mapped to the modules it imports,
    each with the occurrences (line number, optional line text) of that
    import. *)
Abbreviation ImportGraph :=
  (gmap string (gmap string (list (Z * option string)))).

(** Modelled from the spec: the occurrences recorded for the edge
    [a -> b], or [None] when the graph has no such edge. *)
Definition graph_edge (g : ImportGraph) (a b : string)
  : option (list (Z * option string)) :=
  g !! a ≫= λ out, out !! b.

Definition has_import (g : ImportGraph) (a b : string) : Prop :=
  is_Some (graph_edge g a b).

(** The graph records an occurrence of [a -> b] at line [n] with text [txt]. *)
Definition has_occurrence (g : ImportGraph) (a b : string) (n : Z)
    (txt : option string) : Prop :=
  ∃ occs, graph_edge g a b = Some occs ∧ (n, txt) ∈ occs.

(** The edges of a graph, listed once each. *)
Definition edge_list (g : ImportGraph) : list (string * string) :=
  ab ← map_to_list g; (λ b, (ab.1, b)) <$> elements (dom ab.2).

(** The edge set of a graph. *)
Definition graph_edges (g : ImportGraph) : gset (string * string) :=
  list_to_set (edge_list g).

(** Modelled from the spec: the graph without the edge [ab] and its
    occurrences; the modules stay. *)
Definition remove_edge (g : ImportGraph) (ab : string * string) : ImportGraph :=
  alter (delete ab.2) ab.1 g.

(** ** Exceptions and the program monad *)

Inductive Exception :=
  | MissingImport (message : string)
  | IndexError.

Inductive Outcome (A : Type) :=
  | Returned (a : A)
  | Raised (e : Exception).
Arguments Returned {A} a.
Arguments Raised {A} e.

(** What a program can observe and change: the graph, and the history of
    [remove_import] calls made on it. *)
Record World := {
  graph : ImportGraph;
  removals : list (string * string);
}.

Definition Prog (A : Type) : Type := World → Outcome A * World.

Global Instance Prog_ret : MRet Prog := λ A a w, (Returned a, w).
Global Instance Prog_bind : MBind Prog := λ A B f m w,
  match m w with
  | (Returned a, w') => f a w'
  | (Raised e, w') => (Raised e, w')
  end.

Definition raise {A} (e : Exception) : Prog A := λ w, (Raised e, w).

(** [for x in xs: acc = body x acc]: a loop that threads its local
    variables [acc]. *)
Fixpoint for_each {A S} (xs : list A) (body : A → S → Prog S) (acc : S)
  : Prog S :=
  match xs with
  | [] => mret acc
  | x :: xs' => acc' ← body x acc; for_each xs' body acc'
  end.

(** A program that only reads the world. *)
Definition read_only {A} (p : Prog A) : Prop :=
  ∀ w, (p w).2 = w.

(** ** Iteration order of Python sets *)

(** A [for] loop or comprehension over a Python [set] visits every member
    once, in an order the language leaves open (it follows the hashes, which
    for strings change from one interpreter run to the next).  Programs below
    iterate through [set_iter]; theorems hold for every such order. *)
Class SetIteration := {
  set_iter : ∀ `{Countable A}, gset A → list A;
  set_iter_perm : ∀ `{Countable A} (s : gset A), set_iter s ≡ₚ elements s;
}.

(** Two concrete orders: the one of [elements], and its reverse. *)
Definition iter_forward : SetIteration :=
  {| set_iter := λ A _ _ s, elements s;
     set_iter_perm := λ A _ _ s, reflexivity _ |}.

Definition iter_backward : SetIteration :=
  {| set_iter := λ A _ _ s, reverse (elements s);
     set_iter_perm := λ A _ _ s, reverse_Permutation _ |}.

(** The names of the two ends of a direct import. *)
Definition endpoints (d : DirectImport) : string * string :=
  (name (importer d), name (imported d)).

(** The key triple of an occurrence detail. *)
Definition detail_key (detail : ImportDetails) : string * string * Z :=
  (detail_importer detail, detail_imported detail, detail_line_number detail).

(** Two outcomes that a caller cannot tell apart by content: the same
    exception, or the same warnings up to their order. *)
Definition same_outcome (o1 o2 : Outcome (list string)) : Prop :=
  match o1, o2 with
  | Returned warnings1, Returned warnings2 => warnings1 ≡ₚ warnings2
  | Raised exn1, Raised exn2 => exn1 = exn2
  | _, _ => False
  end.

(** ** A small graph and a matching service, for examples *)

(** A pattern matches the edge it spells out, and [a -> *] matches every
    import of [a]. *)
Definition spelled_out (pattern a b : string) : bool :=
  bool_decide (pattern = a +:+ " -> " +:+ b) ||
  bool_decide (pattern = a +:+ " -> *").

(** [a] imports [b] at line 3, with an inline marker, and [c] at line 5 and at
    line 6; the last occurrence has no line text. *)
Definition demo_graph : ImportGraph :=
  {[ "a" := {[ "b" := [(3%Z, Some "import b  # lint-ignore")];
               "c" := [(5%Z, Some "import c"); (6%Z, None)] ]};
     "b" := ∅;
     "c" := ∅ ]}.

Definition demo_world : World := {| graph := demo_graph; removals := [] |}.

Section contract_utils.
Context `{SetIteration}.

(** Modelled from the spec: the graph's pattern-matching service, "an opaque
    pattern matches concrete edge oracle supplied externally":
    [pattern_matches p a b] tells whether the pattern form [p] matches the
    concrete edge [a -> b]. *)
Context (pattern_matches : string → string → string → bool).

(** [ImportExpression] is declared in [importlinter.domain.imports]; this
    module only puts expressions in a set and renders them with [str]. *)
Context {ImportExpression : Type} `{Countable ImportExpression}.
Context (expr_str : ImportExpression → string).

(** *** Operations of the graph *)

(** Modelled from the spec: [graph.modules]. *)
Definition graph_modules : Prog (gset string) :=
  λ w, (Returned (dom (graph w)), w).

(** Modelled from the spec: the modules directly imported by [module]. *)
Definition find_modules_directly_imported_by (module : string)
  : Prog (gset string) :=
  λ w, (Returned (dom (default ∅ (graph w !! module))), w).

(** Modelled from the spec: the occurrence-detail records of one edge. *)
Definition get_import_details (importer imported : string)
  : Prog (list ImportDetails) :=
  λ w, (Returned
          ((λ occ, Build_ImportDetails importer imported occ.1 occ.2) <$>
             default [] (graph_edge (graph w) importer imported)), w).

(** Modelled from the spec: the concrete direct imports that a pattern
    matches, as (importer name, imported name) pairs. *)
Definition matched_by (g : ImportGraph) (import_expression : string)
  : list (string * string) :=
  filter (λ e, pattern_matches import_expression e.1 e.2 = true) (edge_list g).

Definition find_matching_direct_imports (import_expression : string)
  : Prog (list (string * string)) :=
  λ w, (Returned (matched_by (graph w) import_expression), w).

(** Modelled from the spec: remove a direct import edge, with all of its
    occurrences.  The call is recorded in [removals]. *)
Definition remove_import (importer imported : string) : Prog unit :=
  λ w, (Returned (),
        {| graph := remove_edge (graph w) (importer, imported);
           removals := removals w ++ [(importer, imported)] |}).

(** *** contract_utils.py *)

Definition _has_inline_ignore (line_contents keyword : string) : bool :=
  str_contains line_contents keyword.

Definition get_inline_ignored_lines (inline_ignore_keyword : string)
  : Prog (gset (string * string * Z)) :=
  modules ← graph_modules;
  for_each (set_iter modules) (λ module ignored_lines,
    importeds ← find_modules_directly_imported_by module;
    for_each (set_iter importeds) (λ imported_module ignored_lines,
      import_details ← get_import_details module imported_module;
      for_each import_details (λ detail ignored_lines,
        if _has_inline_ignore (default "" (detail_line_contents detail))
                              inline_ignore_keyword
        then mret ({[ (detail_importer detail, detail_imported detail,
                       detail_line_number detail) ]} ∪ ignored_lines)
        else mret ignored_lines)
      ignored_lines)
    ignored_lines)
  ∅.

Definition _build_missing_import_message (expression : ImportExpression)
  : string :=
  "No matches for ignored import " +:+ expr_str expression +:+ ".".

(** [sorted(expressions, key=lambda expression: str(expression))]. *)
Definition sorted_by_str (expressions : list ImportExpression)
  : list ImportExpression :=
  merge_sort (λ e1 e2, String.le (expr_str e1) (expr_str e2)) expressions.

Definition _handle_unresolved_import_expressions
    (expressions : gset ImportExpression) (alert_level : AlertLevel)
  : Prog (list string) :=
  if decide (alert_level = NONE) then mret []
  else if decide (expressions = ∅) then mret []
  else if decide (alert_level = WARN) then
    mret (_build_missing_import_message <$> set_iter expressions)
  else
    match sorted_by_str (set_iter expressions) with
    | first_expression :: _ =>
        raise (MissingImport (_build_missing_import_message first_expression))
    | [] => raise IndexError
    end.

(** [x or []] for an optional sequence. *)
Definition or_empty {A} (xs : option (list A)) : list A :=
  match xs with
  | None | Some [] => []
  | Some l => l
  end.

Definition remove_ignored_imports
    (ignore_imports : option (list ImportExpression))
    (unmatched_alerting : AlertLevel) : Prog (list string) :=
  sets ← for_each (or_empty ignore_imports) (λ import_expression sets,
    let '(imports_to_remove, unresolved_expressions) := sets in
    matched_imports ← find_matching_direct_imports (expr_str import_expression);
    if decide (matched_imports ≠ []) then
      mret (imports_to_remove ∪
              list_to_set ((λ matched_import,
                 {| importer := {| name := matched_import.1 |};
                    imported := {| name := matched_import.2 |} |})
                 <$> matched_imports),
            unresolved_expressions)
    else
      mret (imports_to_remove, unresolved_expressions ∪ {[ import_expression ]}))
    ((∅ : gset DirectImport), (∅ : gset ImportExpression));
  let '(imports_to_remove, unresolved_expressions) := sets in
  warnings ← _handle_unresolved_import_expressions
               unresolved_expressions unmatched_alerting;
  _ ← for_each (set_iter imports_to_remove) (λ import_to_remove _,
         remove_import (name (importer import_to_remove))
                       (name (imported import_to_remove)))
       ();
  mret warnings.

Definition filter_ignored_lines (import_details : list ImportDetails)
    (inline_ignored_lines : gset (string * string * Z))
  : list ImportDetails :=
  filter (λ detail, (detail_importer detail, detail_imported detail,
                     detail_line_number detail) ∉ inline_ignored_lines)
         import_details.

(** *** Vocabulary of the specification *)

(** The expression matches zero concrete edges of the graph. *)
Definition unmatched (g : ImportGraph) (e : ImportExpression) : Prop :=
  ∀ a b, has_import g a b → pattern_matches (expr_str e) a b = false.

(** No expression of the list matches the edge [ab]. *)
Definition kept_by (E : list ImportExpression) (ab : string * string) : Prop :=
  Forall (λ e, pattern_matches (expr_str e) ab.1 ab.2 = false) E.

Global Instance kept_by_dec E ab : Decision (kept_by E ab).
Proof. unfold kept_by. apply _. Defined.

(** The expression matches at least one concrete edge of the graph. *)
Definition matches_some (g : ImportGraph) (e : ImportExpression) : Prop :=
  ∃ a b, has_import g a b ∧ pattern_matches (expr_str e) a b = true.

(** The distinct expressions of the list that match zero concrete edges. *)
Definition unresolved_of (g : ImportGraph) (E : list ImportExpression)
  : gset ImportExpression :=
  list_to_set (filter (λ e, matched_by g (expr_str e) = []) E).

(** The warnings of a WARN call come in ascending order of the expressions'
    string form. *)
Definition warnings_in_string_order (E : list ImportExpression) (w : World)
  : Prop :=
  ∃ w', remove_ignored_imports (Some E) WARN w =
          (Returned (_build_missing_import_message <$>
                       sorted_by_str (elements (unresolved_of (graph w) E))),
           w').

(** * Proofs *)

(** ** Strings *)

Lemma app_cons a s t : String a s +:+ t = String a (s +:+ t).
Proof. reflexivity. Qed.

Lemma prefix_spec needle s :
  String.prefix needle s = true ↔ ∃ after, s = needle +:+ after.
Proof.
  revert s. induction needle as [|a needle IH]; intros s.
  - destruct s; simpl; split; eauto.
  - destruct s as [|b s]; simpl.
    + split; [done|]. by intros [after ?].
    + destruct (Ascii.ascii_dec a b) as [->|Hne].
      * rewrite IH. split; intros [after Heq]; exists after.
        -- by rewrite app_cons, Heq.
        -- rewrite app_cons in Heq. by simplify_eq.
      * split; [done|]. intros [after Heq]. rewrite app_cons in Heq.
        by simplify_eq.
Qed.

Lemma str_contains_spec haystack needle :
  str_contains haystack needle = true ↔ substring_of needle haystack.
Proof.
  unfold substring_of.
  induction haystack as [|c rest IH]; cbn [str_contains];
    rewrite orb_true_iff, prefix_spec.
  - split.
    + intros [[after ->]|?]; [|done]. by exists "", after.
    + intros ([|??] & after & Heq); [|by rewrite app_cons in Heq].
      left. by exists after.
  - rewrite IH. split.
    + intros [[after ->]|(before & after & ->)].
      * by exists "", after.
      * by exists (String c before), after.
    + intros ([|c' before] & after & Heq).
      * left. by exists after.
      * rewrite app_cons in Heq. simplify_eq. right. by exists before, after.
Qed.

Lemma str_contains_empty_needle haystack : str_contains haystack "" = true.
Proof. by destruct haystack. Qed.

Lemma str_contains_empty_haystack needle :
  str_contains "" needle = bool_decide (needle = "").
Proof. by destruct needle. Qed.

(** ** Programs and loops *)

Lemma bind_returned {A B} (m : Prog A) (f : A → Prog B) w a w' :
  m w = (Returned a, w') → (m ≫= f) w = f a w'.
Proof. unfold mbind, Prog_bind. by intros ->. Qed.

Lemma bind_raised {A B} (m : Prog A) (f : A → Prog B) w e w' :
  m w = (Raised e, w') → (m ≫= f) w = (Raised e, w').
Proof. unfold mbind, Prog_bind. by intros ->. Qed.

Lemma for_each_invariant {A S} (Inv : list A → S → World → Prop)
    (xs : list A) (body : A → S → Prog S) acc0 w0 :
  Inv [] acc0 w0 →
  (∀ seen x acc w, Inv seen acc w → x ∈ xs →
     ∃ acc' w', body x acc w = (Returned acc', w') ∧
                Inv (seen ++ [x]) acc' w') →
  ∃ acc' w', for_each xs body acc0 w0 = (Returned acc', w') ∧ Inv xs acc' w'.
Proof.
  intros Hinit Hstep.
  cut (∀ seen acc w, Inv seen acc w →
         ∃ acc' w', for_each xs body acc w = (Returned acc', w') ∧
                    Inv (seen ++ xs) acc' w').
  { intros Hgen. exact (Hgen [] acc0 w0 Hinit). }
  induction xs as [|x xs IH]; intros seen acc w Hinv.
  - exists acc, w. by rewrite app_nil_r.
  - destruct (Hstep seen x acc w Hinv) as (acc1 & w1 & Hrun & Hinv1); [left|].
    destruct (IH (λ s y a v Hi Hy,
                    Hstep s y a v Hi (list_elem_of_further _ _ _ Hy))
                 (seen ++ [x]) acc1 w1 Hinv1) as (acc2 & w2 & Hrest & Hinv2).
    exists acc2, w2. split.
    + cbn [for_each]. by rewrite (bind_returned _ _ _ _ _ Hrun).
    + by rewrite <- app_assoc in Hinv2.
Qed.

Lemma for_each_collect {A T} `{Countable T} (P : A → T → Prop)
    (xs : list A) (body : A → gset T → Prog (gset T)) w :
  (∀ x acc, x ∈ xs →
     ∃ acc', body x acc w = (Returned acc', w) ∧
             ∀ t, t ∈ acc' ↔ t ∈ acc ∨ P x t) →
  ∀ acc, ∃ acc', for_each xs body acc w = (Returned acc', w) ∧
                 ∀ t, t ∈ acc' ↔ t ∈ acc ∨ ∃ x, x ∈ xs ∧ P x t.
Proof.
  induction xs as [|x xs IH]; intros Hbody acc.
  - exists acc. split; [done|]. intros t. split; [auto|].
    intros [?|(x & Hx & _)]; [done|]. by apply elem_of_nil in Hx.
  - destruct (Hbody x acc) as (acc1 & Hrun & Hacc1); [left|].
    destruct (IH (λ y a Hy, Hbody y a (list_elem_of_further _ _ _ Hy)) acc1)
      as (acc2 & Hrest & Hacc2).
    exists acc2. split.
    + cbn [for_each]. by rewrite (bind_returned _ _ _ _ _ Hrun).
    + intros t. rewrite Hacc2, Hacc1. split.
      * intros [[?|?]|(y & ? & ?)]; [by left|right; exists x|right; exists y];
          (split; [|done]); by constructor.
      * intros [?|(y & [->|?]%elem_of_cons & ?)]; eauto.
Qed.

(** ** The graph *)

Lemma elem_of_edge_list g a b : (a, b) ∈ edge_list g ↔ has_import g a b.
Proof.
  unfold edge_list, has_import, graph_edge. rewrite list_elem_of_bind. split.
  - intros ([a' out] & Hin & Hout). simpl in *.
    apply list_elem_of_fmap in Hin as (b' & ? & Hb); simplify_eq.
    apply elem_of_map_to_list in Hout. rewrite Hout. simpl.
    by apply elem_of_dom, elem_of_elements.
  - intros [occs Hocc]. destruct (g !! a) as [out|] eqn:Hout; [|done].
    exists (a, out). split; [|by apply elem_of_map_to_list].
    apply list_elem_of_fmap. exists b. split; [done|].
    apply elem_of_elements, elem_of_dom. by exists occs.
Qed.

Lemma graph_edge_remove_edge g ab a b :
  graph_edge (remove_edge g ab) a b =
    if decide (ab = (a, b)) then None else graph_edge g a b.
Proof.
  destruct ab as [a' b']. unfold graph_edge, remove_edge. simpl.
  rewrite lookup_alter. destruct (decide (a' = a)) as [->|Ha].
  - destruct (decide (b' = b)) as [->|Hb].
    + rewrite decide_True by done. destruct (g !! a); simpl; [|done].
      apply lookup_delete_eq.
    + rewrite decide_False by congruence. destruct (g !! a); simpl; [|done].
      by apply lookup_delete_ne.
  - by rewrite decide_False by congruence.
Qed.

Lemma graph_edge_foldl_remove l g a b :
  graph_edge (foldl remove_edge g l) a b =
    if decide ((a, b) ∈ l) then None else graph_edge g a b.
Proof.
  revert g. induction l as [|ab l IH]; intros g; simpl.
  - destruct (decide ((a, b) ∈ [])) as [Hin|]; [|done].
    by apply elem_of_nil in Hin.
  - rewrite IH, graph_edge_remove_edge.
    destruct (decide ((a, b) ∈ ab :: l)) as [Hin|Hin];
      destruct (decide ((a, b) ∈ l)) as [Hl|Hl]; try done.
    + apply elem_of_cons in Hin as [->|?]; [|done]. by rewrite decide_True.
    + exfalso. apply Hin. by right.
    + rewrite decide_False; [done|]. intros ->. apply Hin. by left.
Qed.

Lemma elem_of_graph_edges g a b : (a, b) ∈ graph_edges g ↔ has_import g a b.
Proof.
  unfold graph_edges. by rewrite elem_of_list_to_set, elem_of_edge_list.
Qed.

Global Instance endpoints_inj : Inj (=) (=) endpoints.
Proof.
  intros [[a] [b]] [[a'] [b']] Heq. unfold endpoints in Heq. by simplify_eq/=.
Qed.

Lemma count_NoDup {A} `{EqDecision A} (l : list A) x :
  NoDup l → x ∈ l → length (filter (λ y, y = x) l) = 1.
Proof.
  induction 1 as [|y l Hy Hnd IH]; [by intros ?%elem_of_nil|].
  intros Hin. rewrite filter_cons. destruct (decide (y = x)) as [->|Hne].
  - simpl. f_equal. apply length_zero_iff_nil, elem_of_nil_inv.
    intros z [-> ?]%list_elem_of_filter. done.
  - apply IH. apply elem_of_cons in Hin as [?|?]; [congruence|done].
Qed.

(** ** The scanner *)

Lemma elem_of_set_iter `{Countable A} (s : gset A) x :
  x ∈ set_iter s ↔ x ∈ s.
Proof. by rewrite set_iter_perm, elem_of_elements. Qed.

Lemma NoDup_set_iter `{Countable A} (s : gset A) : NoDup (set_iter s).
Proof. rewrite set_iter_perm. apply NoDup_elements. Qed.

Lemma scan_spec keyword w :
  ∃ lines, get_inline_ignored_lines keyword w = (Returned lines, w) ∧
    ∀ a b n, (a, b, n) ∈ lines ↔
      ∃ txt, has_occurrence (graph w) a b n txt ∧
             str_contains (default "" txt) keyword = true.
Proof.
  unfold get_inline_ignored_lines.
  rewrite (bind_returned _ _ w (dom (graph w)) w) by done.
  edestruct (for_each_collect
    (λ (module : string) (t : string * string * Z),
       ∃ txt, t.1.1 = module ∧ has_occurrence (graph w) t.1.1 t.1.2 t.2 txt ∧
              str_contains (default "" txt) keyword = true))
    as (lines & Hrun & Hlines); [|exists lines; split; [exact Hrun|]].
  - intros module acc _. cbv beta.
    rewrite (bind_returned _ _ w (dom (default ∅ (graph w !! module))) w)
      by done.
    edestruct (for_each_collect
      (λ (imp : string) (t : string * string * Z),
         ∃ txt, t.1.1 = module ∧ t.1.2 = imp ∧
                has_occurrence (graph w) module imp t.2 txt ∧
                str_contains (default "" txt) keyword = true))
      as (acc' & Hrun & Hacc'); [|exists acc'; split; [exact Hrun|]].
    + intros imp acc1 _. cbv beta.
      erewrite bind_returned by done.
      edestruct (for_each_collect
        (λ (detail : ImportDetails) (t : string * string * Z),
           t = (detail_importer detail, detail_imported detail,
                detail_line_number detail) ∧
           str_contains (default "" (detail_line_contents detail)) keyword
             = true))
        as (acc2 & Hrun & Hacc2); [|exists acc2; split; [exact Hrun|]].
      * intros detail acc2 _. unfold _has_inline_ignore.
        destruct (str_contains _ keyword); eexists; (split; [done|]); intros t.
        -- rewrite elem_of_union, elem_of_singleton.
           split; [intros [?|?]; auto|intros [?|[? _]]; auto].
        -- split; [auto|]. by intros [?|[_ ?]].
      * intros [[a b] n]. rewrite Hacc2. apply or_iff_compat_l. simpl.
        unfold has_occurrence. split.
        -- intros (detail & Hin & Heq & Hk).
           apply list_elem_of_fmap in Hin as ([n' txt] & -> & Hin).
           simpl in *. simplify_eq.
           destruct (graph_edge (graph w) module imp) as [occs|];
             [|by apply elem_of_nil in Hin].
           exists txt. eauto 10.
        -- intros (txt & -> & -> & (occs & Hocc & Hin) & Hk).
           exists (Build_ImportDetails module imp n txt). rewrite Hocc. simpl.
           split; [|done]. apply list_elem_of_fmap. by exists (n, txt).
    + intros [[a b] n]. rewrite Hacc'. apply or_iff_compat_l. simpl. split.
      * intros (imp & _ & txt & -> & -> & ? & ?). eauto.
      * intros (txt & <- & Hocc & ?). exists b. split; [|eauto 10].
        apply elem_of_set_iter, elem_of_dom.
        destruct Hocc as (occs & Hocc & _). unfold graph_edge in Hocc.
        destruct (graph w !! a); [|done]. simpl in *. eauto.
  - intros a b n. rewrite Hlines. split.
    + intros [Hempty|(module & _ & txt & _ & ? & ?)]; [|by eauto].
      by apply elem_of_empty in Hempty.
    + intros (txt & Hocc & ?). right. exists a. split; [|eauto 10].
      apply elem_of_set_iter, elem_of_dom.
      destruct Hocc as (occs & Hocc & _). unfold graph_edge in Hocc.
      destruct (graph w !! a); [|done]. eauto.
Qed.

(** ** The alerting policy *)

Local Instance str_le_trans :
  Transitive (λ e1 e2 : ImportExpression,
                String.le (expr_str e1) (expr_str e2)).
Proof. intros e1 e2 e3 ??. by etrans. Qed.
Local Instance str_le_total :
  Total (λ e1 e2 : ImportExpression, String.le (expr_str e1) (expr_str e2)).
Proof. intros e1 e2. apply (total String.le). Qed.

Lemma set_iter_empty `{Countable A} : set_iter (∅ : gset A) = [].
Proof. apply Permutation_nil_r. by rewrite set_iter_perm, elements_empty. Qed.

Lemma set_iter_nil `{Countable A} (s : gset A) : set_iter s = [] → s = ∅.
Proof.
  intros Hnil. apply set_eq. intros x.
  rewrite <- elem_of_set_iter, Hnil, elem_of_empty. apply elem_of_nil.
Qed.

Lemma handle_world un alert w :
  (_handle_unresolved_import_expressions un alert w).2 = w.
Proof.
  unfold _handle_unresolved_import_expressions.
  repeat (destruct (decide _); [done|]). by destruct (sorted_by_str _).
Qed.

Lemma handle_NONE un w :
  _handle_unresolved_import_expressions un NONE w = (Returned [], w).
Proof. done. Qed.

Lemma handle_empty alert w :
  _handle_unresolved_import_expressions ∅ alert w = (Returned [], w).
Proof.
  unfold _handle_unresolved_import_expressions.
  destruct (decide (alert = NONE)); [done|]. by rewrite decide_True.
Qed.

Lemma handle_WARN un w :
  _handle_unresolved_import_expressions un WARN w =
    (Returned (_build_missing_import_message <$> set_iter un), w).
Proof.
  unfold _handle_unresolved_import_expressions. simpl.
  destruct (decide (un = ∅)) as [->|]; [|done]. by rewrite set_iter_empty.
Qed.

Lemma handle_ERROR un :
  un ≠ ∅ →
  ∃ first_expression,
    first_expression ∈ un ∧
    (∀ e, e ∈ un → String.le (expr_str first_expression) (expr_str e)) ∧
    ∀ w, _handle_unresolved_import_expressions un ERROR w =
           (Raised (MissingImport
                      (_build_missing_import_message first_expression)), w).
Proof.
  intros Hne. unfold _handle_unresolved_import_expressions. simpl.
  rewrite decide_False by done.
  pose proof (StronglySorted_merge_sort
    (λ e1 e2, String.le (expr_str e1) (expr_str e2)) (set_iter un)) as Hsorted.
  pose proof (merge_sort_Permutation
    (λ e1 e2, String.le (expr_str e1) (expr_str e2)) (set_iter un)) as Hperm.
  unfold sorted_by_str.
  destruct (merge_sort _ (set_iter un)) as [|e0 rest].
  - destruct Hne. apply set_iter_nil. symmetry. by apply Permutation_nil_l.
  - exists e0. split; [|split; [|done]].
    + apply elem_of_set_iter. rewrite <- Hperm. by left.
    + intros e He. apply elem_of_set_iter in He. rewrite <- Hperm in He.
      apply StronglySorted_cons in Hsorted as [Hall _].
      apply elem_of_cons in He as [->|He]; [done|].
      by apply (proj1 (Forall_forall _ _) Hall).
Qed.

(** ** The resolver *)

Lemma elem_of_matched_by g p a b :
  (a, b) ∈ matched_by g p ↔ pattern_matches p a b = true ∧ has_import g a b.
Proof.
  unfold matched_by. by rewrite list_elem_of_filter, elem_of_edge_list.
Qed.

Lemma matched_by_nil g e : matched_by g (expr_str e) = [] ↔ unmatched g e.
Proof.
  split.
  - intros Hnil a b Himp. destruct (pattern_matches _ a b) eqn:Hm; [|done].
    assert ((a, b) ∈ matched_by g (expr_str e)) as Hin
      by by apply elem_of_matched_by.
    rewrite Hnil in Hin. by apply elem_of_nil in Hin.
  - intros Hun. apply elem_of_nil_inv.
    intros [a b] [Hm Himp]%elem_of_matched_by.
    by rewrite (Hun a b Himp) in Hm.
Qed.

Lemma kept_by_snoc E e ab :
  kept_by (E ++ [e]) ab ↔
    kept_by E ab ∧ pattern_matches (expr_str e) ab.1 ab.2 = false.
Proof. unfold kept_by. by rewrite Forall_app, Forall_singleton. Qed.

Lemma or_empty_Some {A} (l : list A) : or_empty (Some l) = l.
Proof. by destruct l. Qed.

(** What one call does, for every alert level: the two sets it builds, and
    the world it leaves. *)
Lemma resolve_run E alert w :
  ∃ (rm : gset DirectImport) (un : gset ImportExpression),
    (∀ d, d ∈ rm ↔ has_import (graph w) (endpoints d).1 (endpoints d).2 ∧
                    ¬ kept_by E (endpoints d)) ∧
    (∀ e, e ∈ un ↔ e ∈ E ∧ unmatched (graph w) e) ∧
    remove_ignored_imports (Some E) alert w =
      match (_handle_unresolved_import_expressions un alert w).1 with
      | Returned warnings =>
          (Returned warnings,
           {| graph := foldl remove_edge (graph w) (endpoints <$> set_iter rm);
              removals := removals w ++ (endpoints <$> set_iter rm) |})
      | Raised exn => (Raised exn, w)
      end.
Proof.
  unfold remove_ignored_imports. rewrite or_empty_Some.
  lazymatch goal with |- context [for_each ?xs ?body ?acc0] =>
    destruct (for_each_invariant
      (λ seen (sets : gset DirectImport * gset ImportExpression) w',
         w' = w ∧
         (∀ d, d ∈ sets.1 ↔
                 has_import (graph w) (endpoints d).1 (endpoints d).2 ∧
                 ¬ kept_by seen (endpoints d)) ∧
         (∀ e, e ∈ sets.2 ↔ e ∈ seen ∧ unmatched (graph w) e))
      xs body acc0 w)
      as ([rm un] & w' & Hrun & -> & Hrm & Hun); [| |exists rm, un]
  end.
  - split; [done|]. simpl. split.
    + intros d. rewrite elem_of_empty. split; [done|]. intros [_ Hk].
      destruct Hk. constructor.
    + intros e. rewrite elem_of_empty. split; [done|].
      by intros [?%elem_of_nil _].
  - intros seen e [rm un] ? (-> & Hrm & Hun) _. cbv beta iota.
    erewrite bind_returned by reflexivity.
    destruct (decide (matched_by (graph w) (expr_str e) ≠ [])) as [Hne|Heq].
    + eexists _, w. split; [done|]. split; [done|]. simpl. split.
      * intros d. rewrite elem_of_union, Hrm, elem_of_list_to_set.
        rewrite list_elem_of_fmap, kept_by_snoc. split.
        -- intros [[? Hk]|([a b] & -> & [Hm ?]%elem_of_matched_by)].
           ++ split; [done|]. by intros [? _].
           ++ split; [done|]. simpl. intros [_ Hf]. congruence.
        -- intros [Himp Hk]. destruct (decide (kept_by seen (endpoints d))).
           ++ right. destruct d as [[a] [b]]. exists (a, b). split; [done|].
              apply elem_of_matched_by. split; [|done].
              destruct (pattern_matches (expr_str e) a b) eqn:?; [done|].
              destruct Hk. by split.
           ++ by left.
      * intros e'. rewrite Hun, elem_of_app, list_elem_of_singleton. split.
        -- intros [? ?]. eauto.
        -- intros [[?| ->] ?]; [done|]. by destruct Hne; apply matched_by_nil.
    + apply dec_stable in Heq. apply matched_by_nil in Heq.
      eexists _, w. split; [done|]. split; [done|]. simpl. split.
      * intros d. rewrite Hrm, kept_by_snoc. split.
        -- intros [? Hk]. split; [done|]. by intros [? _].
        -- intros [Himp Hk]. split; [done|]. intros ?. apply Hk.
           split; [done|]. by apply Heq.
      * intros e'. rewrite elem_of_union, Hun, elem_of_app, elem_of_singleton,
          list_elem_of_singleton. split.
        -- intros [[? ?]| ->]; eauto.
        -- intros [[?| ->] ?]; eauto.
  - split; [exact Hrm|]. split; [exact Hun|].
    rewrite (bind_returned _ _ _ _ _ Hrun). simpl in *.
    pose proof (handle_world un alert w) as Hworld.
    destruct (_handle_unresolved_import_expressions un alert w)
      as [[warnings|exn] w'] eqn:Hpolicy; simpl in Hworld; subst w'; simpl;
      [|by rewrite (bind_raised _ _ _ _ _ Hpolicy)].
    rewrite (bind_returned _ _ _ _ _ Hpolicy).
    lazymatch goal with |- context [for_each ?xs ?body ?acc0] =>
      destruct (for_each_invariant
        (λ seen (_ : ()) w',
           w' = {| graph := foldl remove_edge (graph w) (endpoints <$> seen);
                   removals := removals w ++ (endpoints <$> seen) |})
        xs body acc0 w)
        as ([] & w' & Hrm_run & ->)
    end.
    + simpl. rewrite app_nil_r. by destruct w.
    + intros seen d [] ? -> _. eexists (), _. split; [done|].
      unfold remove_import. simpl.
      by rewrite !fmap_app, foldl_app, app_assoc.
    + by rewrite (bind_returned _ _ _ _ _ Hrm_run).
Qed.

Lemma elem_of_unresolved_of g E e :
  e ∈ unresolved_of g E ↔ e ∈ E ∧ unmatched g e.
Proof.
  unfold unresolved_of.
  rewrite elem_of_list_to_set, list_elem_of_filter, matched_by_nil. tauto.
Qed.

Lemma graph_edges_foldl_remove g calls :
  graph_edges (foldl remove_edge g calls) =
    filter (λ ab, ab ∉ calls) (graph_edges g).
Proof.
  clear. apply set_eq. intros [a b].
  rewrite elem_of_filter, !elem_of_graph_edges. unfold has_import.
  rewrite graph_edge_foldl_remove. destruct (decide ((a, b) ∈ calls)).
  - split; [by intros [? ?]|by intros [? _]].
  - tauto.
Qed.

(** One call, for every alert level: either the policy raises and the world
    is as before, or every matched edge is removed by one call. *)
Lemma resolve_outcome E alert w :
  ∃ calls,
    NoDup calls ∧
    (∀ ab, ab ∈ calls ↔ ab ∈ graph_edges (graph w) ∧ ¬ kept_by E ab) ∧
    remove_ignored_imports (Some E) alert w =
      match (_handle_unresolved_import_expressions
               (unresolved_of (graph w) E) alert w).1 with
      | Returned warnings =>
          (Returned warnings,
           {| graph := foldl remove_edge (graph w) calls;
              removals := removals w ++ calls |})
      | Raised exn => (Raised exn, w)
      end.
Proof.
  destruct (resolve_run E alert w) as (rm & un & Hrm & Hun & Hrun).
  assert (un = unresolved_of (graph w) E) as ->.
  { apply set_eq. intros e. by rewrite Hun, elem_of_unresolved_of. }
  exists (endpoints <$> set_iter rm). split; [|split; [|done]].
  - apply (NoDup_fmap_2 _), NoDup_set_iter.
  - intros [a b]. rewrite list_elem_of_fmap, elem_of_graph_edges. split.
    + intros (d & Heq & Hd%elem_of_set_iter). apply Hrm in Hd.
      by rewrite <- Heq in Hd.
    + intros [Himp Hk]. exists {| importer := {| name := a |};
                                  imported := {| name := b |} |}.
      split; [done|]. apply elem_of_set_iter, Hrm. by split.
Qed.

Lemma resolve_None alert w :
  remove_ignored_imports None alert w
    = remove_ignored_imports (Some []) alert w.
Proof. reflexivity. Qed.

(** * The claims *)

(** ** The scanner and the filter *)

Lemma substring_of_empty_haystack keyword :
  substring_of keyword "" → keyword = "".
Proof.
  intros Hsub%str_contains_spec. rewrite str_contains_empty_haystack in Hsub.
  by apply bool_decide_eq_true in Hsub.
Qed.

(** C3: the scan returns exactly the triples (a, b, n) for which the graph
    records an occurrence of the edge a -> b at line n whose line text, taken
    as the empty string when the detail has none, contains the keyword as a
    plain substring; so for a non-empty keyword only occurrences that do have
    a line text containing it are returned. *)
Theorem scan_returns_marked_occurrences keyword w :
  ∃ lines,
    get_inline_ignored_lines keyword w = (Returned lines, w) ∧
    (∀ a b n, (a, b, n) ∈ lines ↔
       ∃ txt, has_occurrence (graph w) a b n txt ∧
              substring_of keyword (default "" txt)) ∧
    (keyword ≠ "" →
     ∀ a b n, (a, b, n) ∈ lines ↔
       ∃ line, has_occurrence (graph w) a b n (Some line) ∧
               substring_of keyword line).
Proof.
  destruct (scan_spec keyword w) as (lines & Hrun & Hlines).
  exists lines. split; [done|].
  assert (∀ a b n, (a, b, n) ∈ lines ↔
            ∃ txt, has_occurrence (graph w) a b n txt ∧
                   substring_of keyword (default "" txt)) as Hsub.
  { intros a b n. rewrite Hlines. by setoid_rewrite str_contains_spec. }
  split; [done|]. intros Hne a b n. rewrite Hsub. split.
  - intros ([line|] & Hocc & Hk); [by exists line|].
    by apply substring_of_empty_haystack in Hk.
  - intros (line & Hocc & Hk). by exists (Some line).
Qed.

(** C4: the filtered list is a subsequence of the input, none of its entries
    has its key triple in the ignored set, and every subsequence of the input
    with that property is a subsequence of it (so exactly the ignored entries
    are dropped and the order of the others is kept); with an empty ignored
    set the input comes back unchanged. *)
Theorem filter_ignored_lines_projection
    (import_details : list ImportDetails)
    (inline_ignored_lines : gset (string * string * Z)) :
  filter_ignored_lines import_details inline_ignored_lines
    `sublist_of` import_details ∧
  Forall (λ detail, detail_key detail ∉ inline_ignored_lines)
         (filter_ignored_lines import_details inline_ignored_lines) ∧
  (∀ kept,
     kept `sublist_of` import_details →
     Forall (λ detail, detail_key detail ∉ inline_ignored_lines) kept →
     kept `sublist_of` filter_ignored_lines import_details inline_ignored_lines) ∧
  filter_ignored_lines import_details ∅ = import_details.
Proof.
  unfold filter_ignored_lines. split; [apply sublist_filter|].
  split; [by apply Forall_forall; intros ? [? _]%list_elem_of_filter|]. split.
  - intros kept Hsub. induction Hsub as [|d l1 l2 Hsub IH|d l1 l2 Hsub IH].
    + constructor.
    + intros [Hd Hall]%Forall_cons. rewrite filter_cons_True by done.
      constructor. by apply IH.
    + intros Hall. rewrite filter_cons. destruct (decide _).
      * constructor. by apply IH.
      * by apply IH.
  - induction import_details as [|d l IH]; [done|].
    rewrite filter_cons_True by apply not_elem_of_empty. by rewrite IH.
Qed.

(** C10: with the empty string as keyword the scan returns the triple of
    every occurrence recorded in the graph, whether or not the occurrence has
    a line text. *)
Theorem scan_empty_keyword_returns_every_occurrence w a b n txt :
  has_occurrence (graph w) a b n txt →
  ∃ lines, get_inline_ignored_lines "" w = (Returned lines, w) ∧
           (a, b, n) ∈ lines.
Proof.
  intros Hocc. destruct (scan_spec "" w) as (lines & Hrun & Hlines).
  exists lines. split; [done|]. apply Hlines. exists txt. split; [done|].
  apply str_contains_empty_needle.
Qed.

(** ** The resolver *)

(** C9: with [None] for the expressions the call does what it does with the
    empty list: at every alert level it returns no warnings, does not raise
    and leaves the world, and so the graph's edge set, as it was. *)
Theorem resolve_None_is_empty_list alert w :
  remove_ignored_imports None alert w
    = remove_ignored_imports (Some []) alert w ∧
  remove_ignored_imports None alert w = (Returned [], w) ∧
  graph_edges (graph (remove_ignored_imports None alert w).2)
    = graph_edges (graph w).
Proof.
  split; [reflexivity|].
  assert (remove_ignored_imports None alert w = (Returned [], w)) as Hrun.
  { rewrite resolve_None.
    destruct (resolve_outcome [] alert w) as (calls & _ & Hcalls & ->).
    assert (calls = []) as ->.
    { apply elem_of_nil_inv. intros ab [_ Hk]%Hcalls. apply Hk. constructor. }
    change (unresolved_of (graph w) []) with (∅ : gset ImportExpression).
    rewrite handle_empty. simpl. rewrite app_nil_r. by destruct w. }
  by rewrite Hrun.
Qed.

(** C5: at alert level NONE the call never raises and returns no warning,
    whatever the expressions match, and the matched edges are removed: the
    edges left are those of the graph that no expression matches. *)
Theorem resolve_NONE_is_silent ignore_imports w :
  ∃ w',
    remove_ignored_imports ignore_imports NONE w = (Returned [], w') ∧
    graph_edges (graph w') =
      filter (kept_by (or_empty ignore_imports)) (graph_edges (graph w)).
Proof.
  assert (∃ E, or_empty ignore_imports = E ∧
               remove_ignored_imports ignore_imports NONE w
                 = remove_ignored_imports (Some E) NONE w) as (E & -> & ->).
  { destruct ignore_imports as [E|]; [exists E|exists []]; split; try done.
    apply or_empty_Some. }
  destruct (resolve_outcome E NONE w) as (calls & _ & Hcalls & ->).
  rewrite handle_NONE. eexists. split; [done|]. simpl.
  rewrite graph_edges_foldl_remove. apply set_eq. intros ab.
  rewrite !elem_of_filter, Hcalls. split.
  - intros [Hnot Hin]. split; [|done]. apply dec_stable. tauto.
  - intros [Hk Hin]. split; [|done]. tauto.
Qed.

(** C6: in a call that returns, the removal operation of the graph is
    invoked exactly once for an edge of the graph that one or more of the
    expressions match, and no edge is removed twice. *)
Theorem resolve_removes_matched_edge_once E alert w warnings w' ab :
  remove_ignored_imports (Some E) alert w = (Returned warnings, w') →
  ab ∈ graph_edges (graph w) →
  ¬ kept_by E ab →
  ∃ calls,
    removals w' = removals w ++ calls ∧
    NoDup calls ∧
    length (filter (λ call, call = ab) calls) = 1.
Proof.
  intros Hrun Hin Hk.
  destruct (resolve_outcome E alert w) as (calls & Hnodup & Hcalls & Hout).
  rewrite Hrun in Hout.
  destruct (_handle_unresolved_import_expressions _ alert w).1; [|done].
  simplify_eq/=. exists calls. split; [done|]. split; [done|].
  apply count_NoDup; [done|]. by apply Hcalls.
Qed.

(** C7: when every expression of the list matches at least one edge, a call
    returns, and a second call with the same list on the graph it left leaves
    the same set of edges (whatever the alert levels are). *)
Theorem resolve_twice_same_edges E alert alert' w :
  Forall (matches_some (graph w)) E →
  ∃ warnings w1,
    remove_ignored_imports (Some E) alert w = (Returned warnings, w1) ∧
    graph_edges (graph (remove_ignored_imports (Some E) alert' w1).2)
      = graph_edges (graph w1).
Proof.
  intros Hall.
  destruct (resolve_outcome E alert w) as (calls & _ & Hcalls & ->).
  assert (unresolved_of (graph w) E = ∅) as ->.
  { apply set_eq. intros e. rewrite elem_of_unresolved_of, elem_of_empty.
    split; [|done]. intros [He Hun].
    destruct (proj1 (Forall_forall _ _) Hall e He) as (a & b & Himp & Hm).
    by rewrite (Hun a b Himp) in Hm. }
  rewrite handle_empty. eexists _, _. split; [done|].
  set (w1 := {| graph := foldl remove_edge (graph w) calls;
                removals := removals w ++ calls |}).
  destruct (resolve_outcome E alert' w1) as (calls' & _ & Hcalls' & ->).
  assert (calls' = []) as ->.
  { apply elem_of_nil_inv. intros ab [Hin Hk]%Hcalls'.
    unfold w1 in Hin. simpl in Hin.
    rewrite graph_edges_foldl_remove, elem_of_filter in Hin.
    destruct Hin as [Hnot Hin]. apply Hnot, Hcalls. by split. }
  by destruct (_handle_unresolved_import_expressions _ alert' w1).1.
Qed.

(** C1: at alert level ERROR, when some expression of the list matches zero
    edges, the call raises MissingImport with the message built from an
    unmatched expression whose string form is smallest among the unmatched
    ones, and leaves the world as it was: the same graph, hence the same
    edge set, and no removal call. *)
Theorem resolve_ERROR_fails_fast E w :
  (∃ e, e ∈ E ∧ unmatched (graph w) e) →
  ∃ smallest w',
    smallest ∈ E ∧ unmatched (graph w) smallest ∧
    (∀ e, e ∈ E → unmatched (graph w) e →
          String.le (expr_str smallest) (expr_str e)) ∧
    remove_ignored_imports (Some E) ERROR w =
      (Raised (MissingImport
                 ("No matches for ignored import " +:+ expr_str smallest +:+ ".")),
       w') ∧
    graph_edges (graph w') = graph_edges (graph w) ∧
    removals w' = removals w ∧
    w' = w.
Proof.
  intros (e & He & Hun).
  destruct (handle_ERROR (unresolved_of (graph w) E))
    as (smallest & [Hin Hsm]%elem_of_unresolved_of & Hmin & Hraise).
  { intros Hempty. apply (not_elem_of_empty (C:=gset ImportExpression) e).
    rewrite <- Hempty. by apply elem_of_unresolved_of. }
  exists smallest, w. split; [done|]. split; [done|]. split.
  { intros e' ? ?. by apply Hmin, elem_of_unresolved_of. }
  destruct (resolve_outcome E ERROR w) as (calls & _ & _ & ->).
  by rewrite Hraise.
Qed.

(** C2, as the code has it: at alert level WARN, when some expression of the
    list matches zero edges, the call returns one warning
    "No matches for ignored import {expr}." for each distinct unmatched
    expression, in the order in which the set of unmatched expressions is
    iterated. *)
Theorem resolve_WARN_one_warning_each E w :
  (∃ e, e ∈ E ∧ unmatched (graph w) e) →
  ∃ order w',
    remove_ignored_imports (Some E) WARN w =
      (Returned ((λ e, "No matches for ignored import " +:+ expr_str e +:+ ".")
                   <$> order), w') ∧
    order = set_iter (unresolved_of (graph w) E) ∧
    NoDup order ∧
    (∀ e, e ∈ order ↔ e ∈ E ∧ unmatched (graph w) e).
Proof.
  intros _. destruct (resolve_outcome E WARN w) as (calls & _ & _ & ->).
  rewrite handle_WARN. eexists _, _. split; [done|]. split; [done|].
  split; [apply NoDup_set_iter|]. intros e.
  by rewrite elem_of_set_iter, elem_of_unresolved_of.
Qed.

(** * Further properties *)

(** ** The resolver *)

Lemma resolve_returned E alert w warnings w' :
  remove_ignored_imports (Some E) alert w = (Returned warnings, w') →
  ∃ calls,
    NoDup calls ∧
    (∀ ab, ab ∈ calls ↔ ab ∈ graph_edges (graph w) ∧ ¬ kept_by E ab) ∧
    w' = {| graph := foldl remove_edge (graph w) calls;
            removals := removals w ++ calls |}.
Proof.
  intros Hrun.
  destruct (resolve_outcome E alert w) as (calls & Hnodup & Hcalls & Hout).
  rewrite Hrun in Hout. exists calls.
  destruct (_handle_unresolved_import_expressions _ alert w).1; by simplify_eq.
Qed.

(** After a call that returned, no expression of the list matches an edge of
    the graph. *)
Lemma resolve_returned_unmatched E alert w warnings w' e :
  remove_ignored_imports (Some E) alert w = (Returned warnings, w') →
  e ∈ E → unmatched (graph w') e.
Proof.
  intros (calls & _ & Hcalls & ->)%resolve_returned He a b Himp. simpl in Himp.
  apply elem_of_graph_edges in Himp.
  rewrite graph_edges_foldl_remove, elem_of_filter in Himp.
  destruct Himp as [Hnot Hin].
  assert (kept_by E (a, b)) as Hkept.
  { apply dec_stable. intros Hk. apply Hnot, Hcalls. by split. }
  by apply (proj1 (Forall_forall _ _) Hkept e He).
Qed.

(** X1: a call that returns, at any alert level, leaves exactly the edges of
    the graph that no expression matches, each with the occurrences it had. *)
Theorem resolve_returning_keeps_unmatched_edges E alert w warnings w' :
  remove_ignored_imports (Some E) alert w = (Returned warnings, w') →
  graph_edges (graph w') = filter (kept_by E) (graph_edges (graph w)) ∧
  ∀ a b, kept_by E (a, b) →
         graph_edge (graph w') a b = graph_edge (graph w) a b.
Proof.
  intros (calls & _ & Hcalls & ->)%resolve_returned. simpl. split.
  - rewrite graph_edges_foldl_remove. apply set_eq. intros ab.
    rewrite !elem_of_filter, Hcalls. split.
    + intros [Hnot Hin]. split; [|done]. apply dec_stable. tauto.
    + intros [Hk Hin]. split; [|done]. tauto.
  - intros a b Hkept. rewrite graph_edge_foldl_remove.
    destruct (decide ((a, b) ∈ calls)) as [Hin|]; [|done].
    by apply Hcalls in Hin as [_ []].
Qed.

(** X2: the removal calls made by a call that returns are exactly the edges
    of the graph that some expression matches: an edge that no expression
    matches, or a pair that is not an edge, is never passed to the graph's
    removal operation. *)
Theorem resolve_removal_calls_are_matched_edges E alert w warnings w' :
  remove_ignored_imports (Some E) alert w = (Returned warnings, w') →
  ∃ calls,
    removals w' = removals w ++ calls ∧
    ∀ ab, ab ∈ calls ↔ ab ∈ graph_edges (graph w) ∧ ¬ kept_by E ab.
Proof.
  intros (calls & _ & Hcalls & ->)%resolve_returned. by exists calls.
Qed.

(** X3: a call raises only at alert level ERROR and only for an expression of
    the list that matches zero edges; what it raises is MissingImport with
    that expression's message, never another exception, and the world is
    left as it was. *)
Theorem resolve_raises_only_MissingImport E alert w exn w' :
  remove_ignored_imports (Some E) alert w = (Raised exn, w') →
  alert = ERROR ∧ w' = w ∧
  ∃ e, e ∈ E ∧ unmatched (graph w) e ∧
       exn = MissingImport
               ("No matches for ignored import " +:+ expr_str e +:+ ".").
Proof.
  intros Hrun.
  destruct (resolve_outcome E alert w) as (calls & _ & _ & Hout).
  rewrite Hrun in Hout. destruct alert.
  - by rewrite handle_NONE in Hout.
  - by rewrite handle_WARN in Hout.
  - destruct (decide (unresolved_of (graph w) E = ∅)) as [Hempty|Hne].
    + by rewrite Hempty, handle_empty in Hout.
    + destruct (handle_ERROR _ Hne)
        as (e & [He Hun]%elem_of_unresolved_of & _ & Hraise).
      rewrite Hraise in Hout. simplify_eq/=. split; [done|]. split; [done|].
      by exists e.
Qed.

(** X4: when every expression of the list matches at least one edge, the
    call returns the empty warning list at every alert level; in particular
    ERROR does not fail. *)
Theorem resolve_all_matched_no_warnings E alert w :
  Forall (matches_some (graph w)) E →
  ∃ w', remove_ignored_imports (Some E) alert w = (Returned [], w').
Proof.
  intros Hall.
  destruct (resolve_outcome E alert w) as (calls & _ & _ & ->).
  assert (unresolved_of (graph w) E = ∅) as ->.
  { apply set_eq. intros e. rewrite elem_of_unresolved_of, elem_of_empty.
    split; [|done]. intros [He Hun].
    destruct (proj1 (Forall_forall _ _) Hall e He) as (a & b & Himp & Hm).
    by rewrite (Hun a b Himp) in Hm. }
  rewrite handle_empty. by eexists.
Qed.

(** X5: after a call that returned, a second call with the same list, at any
    alert level, changes nothing: the graph is the same and no removal call is
    made, whether the second call returns or raises. *)
Theorem resolve_again_changes_nothing E alert alert' w warnings w1 :
  remove_ignored_imports (Some E) alert w = (Returned warnings, w1) →
  (remove_ignored_imports (Some E) alert' w1).2 = w1.
Proof.
  intros Hrun.
  destruct (resolve_outcome E alert' w1) as (calls & _ & Hcalls & ->).
  assert (calls = []) as ->.
  { apply elem_of_nil_inv. intros [a b] [Hin Hk]%Hcalls. apply Hk.
    apply elem_of_graph_edges in Hin. apply Forall_forall. intros e He.
    by apply (resolve_returned_unmatched _ _ _ _ _ e Hrun He). }
  destruct (_handle_unresolved_import_expressions _ alert' w1).1; [|done].
  simpl. rewrite app_nil_r. by destruct w1.
Qed.

(** X6: after a call that returned for a non-empty list, the same list at
    alert level ERROR fails: every expression now matches nothing, and the
    call raises MissingImport for an expression of least string form in the
    whole list. *)
Theorem resolve_again_at_ERROR_raises E alert w warnings w1 :
  remove_ignored_imports (Some E) alert w = (Returned warnings, w1) →
  E ≠ [] →
  ∃ e, e ∈ E ∧
       (∀ e', e' ∈ E → String.le (expr_str e) (expr_str e')) ∧
       remove_ignored_imports (Some E) ERROR w1 =
         (Raised (MissingImport
                    ("No matches for ignored import " +:+ expr_str e +:+ ".")),
          w1).
Proof.
  intros Hrun Hne.
  assert (∀ e, e ∈ unresolved_of (graph w1) E ↔ e ∈ E) as Hall.
  { intros e. rewrite elem_of_unresolved_of. split; [by intros [? _]|].
    intros He. split; [done|].
    by apply (resolve_returned_unmatched _ _ _ _ _ e Hrun He). }
  destruct (handle_ERROR (unresolved_of (graph w1) E))
    as (e & He%Hall & Hmin & Hraise).
  { destruct E as [|e0 E']; [done|]. intros Hempty.
    apply (not_elem_of_empty (C:=gset ImportExpression) e0).
    rewrite <- Hempty. apply Hall. by left. }
  exists e. split; [done|]. split.
  { intros e' He'. by apply Hmin, Hall. }
  destruct (resolve_outcome E ERROR w1) as (calls & _ & _ & ->).
  by rewrite Hraise.
Qed.

(** ** The scanner and the filter *)

Lemma str_app_assoc (s t u : string) : (s +:+ t) +:+ u = s +:+ (t +:+ u).
Proof. induction s as [|a s IH]; [done|]. by rewrite !app_cons, IH. Qed.

Lemma substring_of_trans k1 k2 s :
  substring_of k1 k2 → substring_of k2 s → substring_of k1 s.
Proof.
  intros (b1 & a1 & ->) (b2 & a2 & ->).
  exists (b2 +:+ b1), (a1 +:+ a2). by rewrite !str_app_assoc.
Qed.

Lemma has_occurrence_after_removals g calls a b n txt :
  has_occurrence (foldl remove_edge g calls) a b n txt ↔
    ((a, b) ∉ calls) ∧ has_occurrence g a b n txt.
Proof.
  clear. unfold has_occurrence. rewrite graph_edge_foldl_remove.
  destruct (decide ((a, b) ∈ calls)) as [Hin|Hnot].
  - split.
    + intros (occs & Hedge & _). discriminate Hedge.
    + by intros [Hnot _].
  - split; [by intros Hocc|by intros [_ Hocc]].
Qed.

(** X7: filtering the details of an edge with the result of a scan leaves no
    detail whose line text contains the keyword, and a detail is dropped only
    when the graph records, for its edge and line number, an occurrence whose
    text contains the keyword. *)
Theorem filter_after_scan_drops_marked_details keyword a b w :
  ∃ lines details,
    get_inline_ignored_lines keyword w = (Returned lines, w) ∧
    get_import_details a b w = (Returned details, w) ∧
    Forall (λ detail,
              ¬ substring_of keyword
                  (default "" (detail_line_contents detail)))
           (filter_ignored_lines details lines) ∧
    (∀ detail,
       detail ∈ details →
       detail ∉ filter_ignored_lines details lines →
       ∃ txt, has_occurrence (graph w) a b (detail_line_number detail) txt ∧
              substring_of keyword (default "" txt)).
Proof.
  destruct (scan_spec keyword w) as (lines & Hrun & Hlines).
  eexists lines, _. split; [done|]. split; [reflexivity|]. split.
  - apply Forall_forall. intros d [Hkey Hin]%list_elem_of_filter Hsub.
    apply list_elem_of_fmap in Hin as ([n txt] & -> & Hin). simpl in *.
    apply Hkey, Hlines. exists txt. split; [|by apply str_contains_spec].
    unfold has_occurrence. destruct (graph_edge (graph w) a b) as [occs|].
    + by exists occs.
    + by apply elem_of_nil in Hin.
  - intros d Hin Hdropped.
    assert (detail_key d ∈ lines) as Hkey.
    { apply dec_stable. intros Hnot. apply Hdropped.
      by apply list_elem_of_filter. }
    apply list_elem_of_fmap in Hin as ([n txt] & -> & Hin). simpl in *.
    apply Hlines in Hkey as (txt' & Hocc & Hk). exists txt'.
    split; [done|]. by apply str_contains_spec.
Qed.

(** X8: filtering with one ignored set and then with another is filtering
    once with their union; so the two steps commute and filtering twice with
    the same set is filtering once. *)
Theorem filter_ignored_lines_twice
    (import_details : list ImportDetails)
    (first second : gset (string * string * Z)) :
  filter_ignored_lines (filter_ignored_lines import_details first) second
    = filter_ignored_lines import_details (first ∪ second) ∧
  filter_ignored_lines (filter_ignored_lines import_details first) second
    = filter_ignored_lines (filter_ignored_lines import_details second) first ∧
  filter_ignored_lines (filter_ignored_lines import_details first) first
    = filter_ignored_lines import_details first.
Proof.
  assert (∀ s1 s2,
    filter_ignored_lines (filter_ignored_lines import_details s1) s2
      = filter_ignored_lines import_details (s1 ∪ s2)) as Hunion.
  { intros s1 s2. unfold filter_ignored_lines.
    induction import_details as [|d l IH]; [done|].
    rewrite (filter_cons _ d l).
    destruct (decide (detail_key d ∈ s1)) as [Hin|Hnot].
    - rewrite decide_False by (by intros Hn; apply Hn).
      rewrite filter_cons_False; [done|].
      intros Hn. apply Hn, elem_of_union. by left.
    - rewrite decide_True by done. rewrite !filter_cons, IH.
      destruct (decide (detail_key d ∈ s2)) as [Hin2|Hnot2].
      + rewrite decide_False by (by intros Hn; apply Hn).
        rewrite decide_False; [done|].
        intros Hn. apply Hn, elem_of_union. by right.
      + rewrite decide_True by done. rewrite decide_True; [done|].
        by intros [?|?]%elem_of_union. }
  split; [apply Hunion|]. split.
  - by rewrite !Hunion, (comm_L (∪) first second).
  - by rewrite Hunion, union_idemp_L.
Qed.

(** X9: a longer keyword selects fewer lines: when one keyword is a
    substring of another, every triple the scan returns for the longer one
    is returned for the shorter one too. *)
Theorem scan_is_antitone_in_keyword short long w :
  substring_of short long →
  ∃ lines_short lines_long,
    get_inline_ignored_lines short w = (Returned lines_short, w) ∧
    get_inline_ignored_lines long w = (Returned lines_long, w) ∧
    lines_long ⊆ lines_short.
Proof.
  intros Hsub.
  destruct (scan_spec short w) as (lines1 & Hrun1 & Hlines1).
  destruct (scan_spec long w) as (lines2 & Hrun2 & Hlines2).
  exists lines1, lines2. split; [done|]. split; [done|].
  intros [[a b] n] (txt & Hocc & Hk%str_contains_spec)%Hlines2.
  apply Hlines1. exists txt. split; [done|].
  apply str_contains_spec. by apply (substring_of_trans short long).
Qed.

(** X10: a scan made after a call of the resolver that returned gives the
    triples that a scan made before it gives, less those of the edges that
    some expression matches. *)
Theorem scan_after_resolve E alert keyword w warnings w' :
  remove_ignored_imports (Some E) alert w = (Returned warnings, w') →
  ∃ before after,
    get_inline_ignored_lines keyword w = (Returned before, w) ∧
    get_inline_ignored_lines keyword w' = (Returned after, w') ∧
    after = filter (λ t, kept_by E (t.1.1, t.1.2)) before.
Proof.
  intros (calls & _ & Hcalls & ->)%resolve_returned.
  destruct (scan_spec keyword w) as (lines1 & Hrun1 & Hlines1).
  destruct (scan_spec keyword
              {| graph := foldl remove_edge (graph w) calls;
                 removals := removals w ++ calls |})
    as (lines2 & Hrun2 & Hlines2).
  exists lines1, lines2. split; [done|]. split; [done|].
  apply set_eq. intros [[a b] n]. rewrite elem_of_filter, Hlines2, Hlines1.
  simpl. setoid_rewrite has_occurrence_after_removals. split.
  - intros (txt & [Hnot Hocc] & Hk). split; [|by eauto].
    apply dec_stable. intros Hkept. apply Hnot, Hcalls. split; [|done].
    apply elem_of_graph_edges. destruct Hocc as (occs & Hedge & _).
    by exists occs.
  - intros [Hkept (txt & Hocc & Hk)]. exists txt. split; [|done].
    split; [|done]. by intros [_ []]%Hcalls.
Qed.

(** X11: on a graph in which no module imports anything the scan returns
    the empty set for every keyword, the empty one included. *)
Theorem scan_of_import_free_graph keyword w :
  graph_edges (graph w) = ∅ →
  get_inline_ignored_lines keyword w = (Returned ∅, w).
Proof.
  intros Hempty. destruct (scan_spec keyword w) as (lines & -> & Hlines).
  do 2 f_equal. apply set_eq. intros [[a b] n].
  rewrite Hlines, elem_of_empty. split; [|done].
  intros (txt & (occs & Hedge & _) & _).
  apply (not_elem_of_empty (C:=gset (string * string)) (a, b)).
  rewrite <- Hempty. apply elem_of_graph_edges. by exists occs.
Qed.

End contract_utils.

(** C8: a scan only reads: it returns the world it was given, and a second
    scan of that world returns the same set of triples, in whatever order the
    two scans visit the sets of modules. *)
Theorem scan_is_read_only_and_repeatable (first second : SetIteration)
    keyword :
  read_only (get_inline_ignored_lines (H:=first) keyword) ∧
  ∀ w, ∃ lines,
    get_inline_ignored_lines (H:=first) keyword w = (Returned lines, w) ∧
    get_inline_ignored_lines (H:=second) keyword
      (get_inline_ignored_lines (H:=first) keyword w).2 = (Returned lines, w).
Proof.
  split.
  - intros w. by destruct (scan_spec (H:=first) keyword w) as (? & -> & _).
  - intros w.
    destruct (scan_spec (H:=first) keyword w) as (lines1 & Hrun1 & Hlines1).
    destruct (scan_spec (H:=second) keyword w) as (lines2 & Hrun2 & Hlines2).
    exists lines1. split; [done|]. rewrite Hrun1. simpl. rewrite Hrun2.
    do 2 f_equal. apply set_eq. intros [[a b] n]. by rewrite Hlines1, Hlines2.
Qed.

(** ** What the resolver does not depend on *)

Lemma remove_edge_comm g x y :
  remove_edge (remove_edge g x) y = remove_edge (remove_edge g y) x.
Proof.
  destruct x as [a b], y as [a' b']. unfold remove_edge. simpl.
  apply map_eq. intros k. destruct (decide (a = k)) as [->|Ha].
  - rewrite lookup_alter, (lookup_alter_eq _ _ k).
    destruct (decide (a' = k)) as [->|Ha'].
    + rewrite !lookup_alter_eq. destruct (g !! k) as [out|]; [|done].
      simpl. f_equal. apply delete_delete.
    + by rewrite lookup_alter_eq, lookup_alter_ne.
  - rewrite (lookup_alter_ne _ (alter _ a' g)) by done.
    rewrite lookup_alter. destruct (decide (a' = k)) as [->|Ha'].
    + by rewrite lookup_alter_ne, lookup_alter_eq.
    + by rewrite !lookup_alter_ne.
Qed.

Lemma foldl_remove_edge_perm calls1 calls2 :
  calls1 ≡ₚ calls2 →
  ∀ g, foldl remove_edge g calls1 = foldl remove_edge g calls2.
Proof.
  induction 1 as [|x l1 l2 _ IH|x y l|l1 l2 l3 _ IH1 _ IH2]; intros g; simpl.
  - done.
  - apply IH.
  - by rewrite remove_edge_comm.
  - by rewrite IH1.
Qed.

(** X12: what a call does depends only on the set of expressions it is
    given: for two lists with the same members (in any order, with any
    repetitions) and for any two orders of iterating sets, the two calls
    leave the same graph, and either raise the same exception or return the
    same warnings up to their order. *)
Theorem resolve_depends_on_the_expression_set_only
    (first second : SetIteration)
    (pattern_matches : string → string → string → bool)
    {ImportExpression : Type} `{Countable ImportExpression}
    (expr_str : ImportExpression → string)
    (E1 E2 : list ImportExpression) alert w :
  (∀ e, e ∈ E1 ↔ e ∈ E2) →
  same_outcome
    (remove_ignored_imports (H:=first) pattern_matches expr_str
       (Some E1) alert w).1
    (remove_ignored_imports (H:=second) pattern_matches expr_str
       (Some E2) alert w).1 ∧
  graph (remove_ignored_imports (H:=first) pattern_matches expr_str
           (Some E1) alert w).2
    = graph (remove_ignored_imports (H:=second) pattern_matches expr_str
               (Some E2) alert w).2.
Proof.
  intros Hsame.
  destruct (resolve_outcome (H:=first) pattern_matches expr_str E1 alert w)
    as (calls1 & Hnodup1 & Hcalls1 & ->).
  destruct (resolve_outcome (H:=second) pattern_matches expr_str E2 alert w)
    as (calls2 & Hnodup2 & Hcalls2 & ->).
  assert (unresolved_of pattern_matches expr_str (graph w) E1
          = unresolved_of pattern_matches expr_str (graph w) E2) as ->.
  { apply set_eq. intros e. by rewrite !elem_of_unresolved_of, Hsame. }
  assert (foldl remove_edge (graph w) calls1
          = foldl remove_edge (graph w) calls2) as Hgraph.
  { apply foldl_remove_edge_perm, NoDup_Permutation; [done..|].
    intros ab. rewrite Hcalls1, Hcalls2. unfold kept_by.
    rewrite !Forall_forall. by setoid_rewrite Hsame. }
  set (un := unresolved_of pattern_matches expr_str (graph w) E2).
  destruct alert.
  - rewrite !handle_NONE. simpl. by split.
  - rewrite !handle_WARN. simpl. split; [|done].
    apply fmap_Permutation.
    by rewrite (set_iter_perm (SetIteration:=first)),
               (set_iter_perm (SetIteration:=second)).
  - destruct (decide (un = ∅)) as [->|Hne].
    + rewrite !handle_empty. simpl. by split.
    + destruct (handle_ERROR (H:=first) expr_str un Hne)
        as (e1 & Hin1 & Hmin1 & ->).
      destruct (handle_ERROR (H:=second) expr_str un Hne)
        as (e2 & Hin2 & Hmin2 & ->).
      simpl. split; [|done]. unfold _build_missing_import_message.
      by rewrite (anti_symm String.le _ _ (Hmin1 e2 Hin2) (Hmin2 e1 Hin1)).
Qed.

(** ** The scenarios of the specification *)

Example scan_scenario :
  get_inline_ignored_lines (H:=iter_forward) "lint-ignore" demo_world
    = (Returned {[ ("a", "b", 3%Z) ]}, demo_world).
Proof. by vm_compute. Qed.

Example resolve_WARN_scenario :
  remove_ignored_imports (H:=iter_forward) spelled_out id
      (Some ["a -> b"; "x -> y"]) WARN demo_world
    = (Returned ["No matches for ignored import x -> y."],
       {| graph := remove_edge demo_graph ("a", "b");
          removals := [("a", "b")] |}).
Proof. by vm_compute. Qed.

Example resolve_ERROR_scenario :
  remove_ignored_imports (H:=iter_forward) spelled_out id
      (Some ["a -> b"; "x -> y"]) ERROR demo_world
    = (Raised (MissingImport "No matches for ignored import x -> y."),
       demo_world).
Proof. by vm_compute. Qed.

(** A scan of the demo graph for the empty keyword finds the occurrence at
    line 6, which has no line text. *)
Lemma scan_empty_keyword_demo :
  has_occurrence (graph demo_world) "a" "c" 6 None ∧
  ∃ lines,
    get_inline_ignored_lines (H:=iter_forward) "" demo_world
      = (Returned lines, demo_world) ∧
    ("a", "c", 6%Z) ∈ lines.
Proof.
  assert (has_occurrence (graph demo_world) "a" "c" 6 None) as Hocc.
  { exists [(5%Z, Some "import c"); (6%Z, None)]. split; [reflexivity|].
    right. left. }
  split; [exact Hocc|].
  exact (scan_empty_keyword_returns_every_occurrence demo_world "a" "c" 6 None Hocc).
Defined.

(** * The claims on the demo graph *)

(** An expression list whose first unmatched expression is not the smallest
    one: [x -> y] and [c -> d] match nothing in the demo graph. *)
Lemma demo_unmatched :
  ∃ e, e ∈ ["x -> y"; "c -> d"; "a -> b"] ∧
       unmatched spelled_out id (graph demo_world) e.
Proof.
  exists "x -> y". split; [left|]. apply matched_by_nil. by vm_compute.
Qed.

(** C1 on the demo graph: the error names [c -> d], not [x -> y]. *)
Lemma resolve_ERROR_fails_fast_demo :
  (∃ e, e ∈ ["x -> y"; "c -> d"; "a -> b"] ∧
        unmatched spelled_out id (graph demo_world) e) ∧
  ∃ smallest w',
    smallest ∈ ["x -> y"; "c -> d"; "a -> b"] ∧
    unmatched spelled_out id (graph demo_world) smallest ∧
    (∀ e, e ∈ ["x -> y"; "c -> d"; "a -> b"] →
          unmatched spelled_out id (graph demo_world) e →
          String.le smallest e) ∧
    remove_ignored_imports (H:=iter_backward) spelled_out id
        (Some ["x -> y"; "c -> d"; "a -> b"]) ERROR demo_world =
      (Raised (MissingImport
                 ("No matches for ignored import " +:+ smallest +:+ ".")), w') ∧
    graph_edges (graph w') = graph_edges (graph demo_world) ∧
    removals w' = removals demo_world ∧
    w' = demo_world.
Proof.
  split; [exact demo_unmatched|].
  exact (resolve_ERROR_fails_fast (H:=iter_backward) spelled_out id
           ["x -> y"; "c -> d"; "a -> b"] demo_world demo_unmatched).
Defined.

(** C2 as amended, on the demo graph. *)
Lemma resolve_WARN_one_warning_each_demo :
  (∃ e, e ∈ ["x -> y"; "c -> d"; "a -> b"] ∧
        unmatched spelled_out id (graph demo_world) e) ∧
  ∃ order w',
    remove_ignored_imports (H:=iter_backward) spelled_out id
        (Some ["x -> y"; "c -> d"; "a -> b"]) WARN demo_world =
      (Returned ((λ e, "No matches for ignored import " +:+ e +:+ ".")
                   <$> order), w') ∧
    order = set_iter (SetIteration:=iter_backward)
              (unresolved_of spelled_out id (graph demo_world)
                             ["x -> y"; "c -> d"; "a -> b"]) ∧
    NoDup order ∧
    (∀ e, e ∈ order ↔
          e ∈ ["x -> y"; "c -> d"; "a -> b"] ∧
          unmatched spelled_out id (graph demo_world) e).
Proof.
  split; [exact demo_unmatched|].
  exact (resolve_WARN_one_warning_each (H:=iter_backward) spelled_out id
           ["x -> y"; "c -> d"; "a -> b"] demo_world demo_unmatched).
Defined.

(** C2 as stated fails: iterating the unmatched set from its far end, the
    warning for [x -> y] comes before the one for [c -> d]. *)
Lemma warnings_not_in_string_order :
  (∃ e, e ∈ ["x -> y"; "c -> d"; "a -> b"] ∧
        unmatched spelled_out id (graph demo_world) e) ∧
  remove_ignored_imports (H:=iter_backward) spelled_out id
      (Some ["x -> y"; "c -> d"; "a -> b"]) WARN demo_world =
    (Returned ["No matches for ignored import x -> y.";
               "No matches for ignored import c -> d."],
     {| graph := remove_edge demo_graph ("a", "b");
        removals := [("a", "b")] |}) ∧
  ¬ warnings_in_string_order (H:=iter_backward) spelled_out id
      ["x -> y"; "c -> d"; "a -> b"] demo_world.
Proof.
  split; [exact demo_unmatched|]. split; [by vm_compute|].
  intros [w' Hrun]. vm_compute in Hrun. discriminate Hrun.
Qed.

(** C6 on the demo graph: [a -> b] is matched by [a -> b] and by [a -> *]. *)
Lemma resolve_removes_matched_edge_once_demo :
  ∃ calls,
    removals (remove_ignored_imports (H:=iter_forward) spelled_out id
                (Some ["a -> b"; "a -> *"]) WARN demo_world).2
      = removals demo_world ++ calls ∧
    NoDup calls ∧
    length (filter (λ call, call = ("a", "b")) calls) = 1.
Proof.
  apply (resolve_removes_matched_edge_once (H:=iter_forward) spelled_out id
           ["a -> b"; "a -> *"] WARN demo_world []).
  - by vm_compute.
  - by vm_compute.
  - intros Hkept. by inversion Hkept.
Defined.

(** C7 on the demo graph. *)
Lemma resolve_twice_same_edges_demo :
  Forall (matches_some spelled_out id (graph demo_world)) ["a -> b"; "a -> *"] ∧
  ∃ warnings w1,
    remove_ignored_imports (H:=iter_forward) spelled_out id
        (Some ["a -> b"; "a -> *"]) ERROR demo_world = (Returned warnings, w1) ∧
    graph_edges (graph (remove_ignored_imports (H:=iter_forward) spelled_out id
                          (Some ["a -> b"; "a -> *"]) WARN w1).2)
      = graph_edges (graph w1).
Proof.
  assert (Forall (matches_some spelled_out id (graph demo_world))
                 ["a -> b"; "a -> *"]) as Hall.
  { repeat constructor; exists "a", "b"; (split; [by eexists|done]). }
  split; [exact Hall|].
  exact (resolve_twice_same_edges (H:=iter_forward) spelled_out id
           ["a -> b"; "a -> *"] ERROR WARN demo_world Hall).
Defined.

(** * The further properties on the demo graph *)

(** X1 on the demo graph: [a -> b] goes, [a -> c] stays. *)
Lemma resolve_returning_keeps_unmatched_edges_demo :
  graph_edges
    (graph (remove_ignored_imports (H:=iter_forward) spelled_out id
              (Some ["a -> b"; "x -> y"]) WARN demo_world).2)
    = filter (kept_by spelled_out id ["a -> b"; "x -> y"])
             (graph_edges (graph demo_world)) ∧
  ∀ a b, kept_by spelled_out id ["a -> b"; "x -> y"] (a, b) →
         graph_edge
           (graph (remove_ignored_imports (H:=iter_forward) spelled_out id
                     (Some ["a -> b"; "x -> y"]) WARN demo_world).2) a b
           = graph_edge (graph demo_world) a b.
Proof.
  apply (resolve_returning_keeps_unmatched_edges (H:=iter_forward)
           spelled_out id ["a -> b"; "x -> y"] WARN demo_world
           ["No matches for ignored import x -> y."]).
  by vm_compute.
Defined.

(** X2 on the demo graph. *)
Lemma resolve_removal_calls_are_matched_edges_demo :
  ∃ calls,
    removals (remove_ignored_imports (H:=iter_forward) spelled_out id
                (Some ["a -> b"; "x -> y"]) WARN demo_world).2
      = removals demo_world ++ calls ∧
    ∀ ab, ab ∈ calls ↔
          ab ∈ graph_edges (graph demo_world) ∧
          ¬ kept_by spelled_out id ["a -> b"; "x -> y"] ab.
Proof.
  apply (resolve_removal_calls_are_matched_edges (H:=iter_forward)
           spelled_out id ["a -> b"; "x -> y"] WARN demo_world
           ["No matches for ignored import x -> y."]).
  by vm_compute.
Defined.

(** X3 on the demo graph. *)
Lemma resolve_raises_only_MissingImport_demo :
  ERROR = ERROR ∧ demo_world = demo_world ∧
  ∃ e, e ∈ ["x -> y"; "c -> d"; "a -> b"] ∧
       unmatched spelled_out id (graph demo_world) e ∧
       MissingImport "No matches for ignored import c -> d."
         = MissingImport ("No matches for ignored import " +:+ e +:+ ".").
Proof.
  apply (resolve_raises_only_MissingImport (H:=iter_backward)
           spelled_out id ["x -> y"; "c -> d"; "a -> b"] ERROR demo_world).
  by vm_compute.
Defined.

(** X4 on the demo graph. *)
Lemma resolve_all_matched_no_warnings_demo :
  ∃ w', remove_ignored_imports (H:=iter_forward) spelled_out id
          (Some ["a -> b"; "a -> *"]) ERROR demo_world = (Returned [], w').
Proof.
  apply (resolve_all_matched_no_warnings (H:=iter_forward) spelled_out id
           ["a -> b"; "a -> *"] ERROR demo_world).
  repeat constructor; exists "a", "b"; (split; [by eexists|done]).
Defined.

(** X5 on the demo graph. *)
Lemma resolve_again_changes_nothing_demo :
  (remove_ignored_imports (H:=iter_forward) spelled_out id
     (Some ["a -> b"; "x -> y"]) ERROR
     (remove_ignored_imports (H:=iter_forward) spelled_out id
        (Some ["a -> b"; "x -> y"]) WARN demo_world).2).2
  = (remove_ignored_imports (H:=iter_forward) spelled_out id
       (Some ["a -> b"; "x -> y"]) WARN demo_world).2.
Proof.
  apply (resolve_again_changes_nothing (H:=iter_forward) spelled_out id
           ["a -> b"; "x -> y"] WARN ERROR demo_world
           ["No matches for ignored import x -> y."]).
  by vm_compute.
Defined.

(** X6 on the demo graph. *)
Lemma resolve_again_at_ERROR_raises_demo :
  ∃ e, e ∈ ["a -> b"; "x -> y"] ∧
       (∀ e', e' ∈ ["a -> b"; "x -> y"] → String.le e e') ∧
       remove_ignored_imports (H:=iter_forward) spelled_out id
         (Some ["a -> b"; "x -> y"]) ERROR
         (remove_ignored_imports (H:=iter_forward) spelled_out id
            (Some ["a -> b"; "x -> y"]) WARN demo_world).2
       = (Raised (MissingImport
                    ("No matches for ignored import " +:+ e +:+ ".")),
          (remove_ignored_imports (H:=iter_forward) spelled_out id
             (Some ["a -> b"; "x -> y"]) WARN demo_world).2).
Proof.
  apply (resolve_again_at_ERROR_raises (H:=iter_forward) spelled_out id
           ["a -> b"; "x -> y"] WARN demo_world
           ["No matches for ignored import x -> y."]).
  - by vm_compute.
  - done.
Defined.

(** X9 on the demo graph, for the keywords "ignore" and "lint-ignore". *)
Lemma scan_is_antitone_in_keyword_demo :
  ∃ lines_short lines_long,
    get_inline_ignored_lines (H:=iter_forward) "ignore" demo_world
      = (Returned lines_short, demo_world) ∧
    get_inline_ignored_lines (H:=iter_forward) "lint-ignore" demo_world
      = (Returned lines_long, demo_world) ∧
    lines_long ⊆ lines_short.
Proof.
  apply (scan_is_antitone_in_keyword (H:=iter_forward)
           "ignore" "lint-ignore" demo_world).
  by exists "lint-", "".
Defined.

(** X10 on the demo graph. *)
Lemma scan_after_resolve_demo :
  ∃ before after,
    get_inline_ignored_lines (H:=iter_forward) "import" demo_world
      = (Returned before, demo_world) ∧
    get_inline_ignored_lines (H:=iter_forward) "import"
        (remove_ignored_imports (H:=iter_forward) spelled_out id
           (Some ["a -> b"]) NONE demo_world).2
      = (Returned after,
         (remove_ignored_imports (H:=iter_forward) spelled_out id
            (Some ["a -> b"]) NONE demo_world).2) ∧
    after = filter (λ t, kept_by spelled_out id ["a -> b"] (t.1.1, t.1.2))
                   before.
Proof.
  apply (scan_after_resolve (H:=iter_forward) spelled_out id
           ["a -> b"] NONE "import" demo_world []).
  by vm_compute.
Defined.

(** X11 on a graph of one module that imports nothing. *)
Lemma scan_of_import_free_graph_demo :
  get_inline_ignored_lines (H:=iter_forward) ""
      {| graph := {[ "a" := ∅ ]}; removals := [] |}
    = (Returned ∅, {| graph := {[ "a" := ∅ ]}; removals := [] |}).
Proof.
  apply (scan_of_import_free_graph (H:=iter_forward) ""
           {| graph := {[ "a" := ∅ ]}; removals := [] |}).
  by vm_compute.
Defined.

(** X12 on the demo graph: a list with a repetition against its members in
    another order, under two iteration orders. *)
Lemma resolve_depends_on_the_expression_set_only_demo :
  same_outcome
    (remove_ignored_imports (H:=iter_forward) spelled_out id
       (Some ["a -> b"; "x -> y"; "c -> d"; "a -> b"]) WARN demo_world).1
    (remove_ignored_imports (H:=iter_backward) spelled_out id
       (Some ["c -> d"; "x -> y"; "a -> b"]) WARN demo_world).1 ∧
  graph (remove_ignored_imports (H:=iter_forward) spelled_out id
           (Some ["a -> b"; "x -> y"; "c -> d"; "a -> b"]) WARN demo_world).2
    = graph (remove_ignored_imports (H:=iter_backward) spelled_out id
               (Some ["c -> d"; "x -> y"; "a -> b"]) WARN demo_world).2.
Proof.
  apply (resolve_depends_on_the_expression_set_only iter_forward iter_backward
           spelled_out id
           ["a -> b"; "x -> y"; "c -> d"; "a -> b"]
           ["c -> d"; "x -> y"; "a -> b"] WARN demo_world).
  intros e. rewrite !elem_of_cons, !elem_of_nil. tauto.
Defined.
